(** * MathPilot: transcript assembly and slide-content normalisation

    A shallow embedding of
    - [backend/app/services/audio/stt_processor.py]  ([STTProcessor.transcribe])
    - [backend/app/services/vision/ocr_processor.py] ([OCRProcessor])
    together with the properties the specification states about them.

    Python values are modelled as follows.
    - [str] is a sequence of Unicode code points: [list N].
    - [int] millisecond offsets are [Z]; the [float] seconds obtained from
      them by [/ 1000.0] are exact rationals [Q] (rounding is monotone, so
      order statements carry over; [0.0] and [999999.0] are exact).
    - a raised exception is the [Raised] outcome. *)

From Stdlib Require Import Ascii String.
From Stdlib Require Import List Bool Arith ZArith NArith QArith Lia Sorted.
Import ListNotations.

Close Scope Q_scope.
Set Implicit Arguments.

(** ** Python strings *)

Module PyStr.

Definition char := N.
Definition str := list char.

(** A string literal of the source, character by character (ASCII only). *)
Definition lit (s : string) : str :=
  map N_of_ascii (list_ascii_of_string s).

Definition NL : char := 10%N.
Definition SP : char := 32%N.
Definition DOLLAR : char := 36%N.

(** [str.isspace] on one code point: CPython's [_PyUnicode_IsWhitespace]. *)
Definition isspace (c : char) : bool :=
  ((9 <=? c) && (c <=? 13) || (28 <=? c) && (c <=? 32)
   || (c =? 133) || (c =? 160) || (c =? 5760)
   || (8192 <=? c) && (c <=? 8202)
   || (c =? 8232) || (c =? 8233) || (c =? 8239) || (c =? 8287)
   || (c =? 12288))%N.

Fixpoint lstrip (s : str) : str :=
  match s with
  | [] => []
  | c :: t => if isspace c then lstrip t else s
  end.

Definition rstrip (s : str) : str := rev (lstrip (rev s)).

(** [s.strip()]: the left index is advanced first, then the right one. *)
Definition strip (s : str) : str := rstrip (lstrip s).

(** [s.split('\n')]: never empty, one more piece than there are newlines. *)
Fixpoint split_nl (s : str) : list str :=
  match s with
  | [] => [[]]
  | c :: t =>
      if (c =? NL)%N then [] :: split_nl t
      else match split_nl t with
           | l :: ls => (c :: l) :: ls
           | [] => [[c]]
           end
  end.

(** [sep.join(parts)]. *)
Fixpoint join (sep : str) (parts : list str) : str :=
  match parts with
  | [] => []
  | [p] => p
  | p :: ps => p ++ sep ++ join sep ps
  end.

(** [s.startswith(sub)]. *)
Fixpoint startswith (sub s : str) : bool :=
  match sub, s with
  | [], _ => true
  | _ :: _, [] => false
  | a :: sub', b :: s' => (a =? b)%N && startswith sub' s'
  end.

(** [sub in s]. *)
Fixpoint contains (sub s : str) : bool :=
  startswith sub s ||
  match s with
  | [] => false
  | _ :: t => contains sub t
  end.

(** [s.count(sub)] for a non-empty [sub]: occurrences are counted from the
    left and do not overlap; [skip] is the number of characters of the last
    occurrence that are still to be passed over. *)
Fixpoint count_from (sub : str) (skip : nat) (s : str) : nat :=
  match s with
  | [] => 0
  | _ :: t =>
      match skip with
      | S k => count_from sub k t
      | O => if startswith sub s
             then S (count_from sub (length sub - 1) t)
             else count_from sub 0 t
      end
  end.

Definition count (sub s : str) : nat := count_from sub 0 s.

End PyStr.

Import PyStr.

(** ** ocr_processor.py *)

Module OCRProcessor.

(** The raw string [r'\begin{array}']. *)
Definition MARKER : str := lit "\begin{array}".

(** The test of one loop iteration of [_clean_hallucinations]: [true] when
    the line reaches [cleaned_lines.append(line)], [false] on [continue]. *)
Definition keeps (line : str) : bool :=
  if 3 <? count MARKER line then false
  else if (500 <? length line) && contains MARKER line then false
  else true.

Definition _clean_hallucinations (text : str) : str :=
  let lines := split_nl text in
  let cleaned_lines := filter keeps lines in
  join [NL] cleaned_lines.

End OCRProcessor.

(** ** The regular expressions of [_extract_latex] *)

Module Re.

(** The part of Python's [re] syntax the two patterns are written in. A
    pattern is a sequence of items and holds exactly one group. *)
Inductive item : Type :=
| Lit (c : char)        (* an escaped literal such as [\$] *)
| NotBehind (c : char)  (* [(?<!c)] *)
| NotAhead (c : char)   (* [(?!c)] *)
| LazyAnyGroup.         (* [(.*?)] *)

Definition pattern := list item.

(** [.] matches every character under [re.DOTALL] and every character but
    the newline otherwise. *)
Definition dot (dotall : bool) (c : char) : bool :=
  dotall || negb (c =? NL)%N.

(** Backtracking match of [p] at the current position: [prev] is the
    character before it and [s] the input from it on. The result is the
    text of the group and the input left after the match. The lazy star
    first tries the rest of the pattern and takes one more character only
    when that fails. *)
Fixpoint match_here (dotall : bool) (p : pattern) (prev : option char)
    (s : str) {struct p} : option (str * str) :=
  match p with
  | [] => Some ([], s)
  | Lit c :: p' =>
      match s with
      | x :: t => if (x =? c)%N then match_here dotall p' (Some x) t else None
      | [] => None
      end
  | NotBehind c :: p' =>
      match prev with
      | Some x => if (x =? c)%N then None else match_here dotall p' prev s
      | None => match_here dotall p' prev s
      end
  | NotAhead c :: p' =>
      match s with
      | x :: _ => if (x =? c)%N then None else match_here dotall p' prev s
      | [] => match_here dotall p' prev s
      end
  | LazyAnyGroup :: p' =>
      (fix lazy (acc : str) (prev : option char) (s : str) {struct s}
         : option (str * str) :=
         match match_here dotall p' prev s with
         | Some (_, r) => Some (rev acc, r)
         | None =>
             match s with
             | x :: t => if dot dotall x then lazy (x :: acc) (Some x) t
                         else None
             | [] => None
             end
         end) [] prev s
  end.

(** [re.findall]: the groups of the successive non-overlapping matches,
    searched from left to right. [skip] counts the characters of the last
    match that are still to be passed over. *)
Fixpoint findall_from (dotall : bool) (p : pattern) (skip : nat)
    (prev : option char) (s : str) {struct s} : list str :=
  match skip with
  | S k =>
      match s with
      | [] => []
      | x :: t => findall_from dotall p k (Some x) t
      end
  | O =>
      match match_here dotall p prev s with
      | Some (g, r) =>
          g :: match s with
               | [] => []
               | x :: t =>
                   findall_from dotall p (length s - length r - 1) (Some x) t
               end
      | None =>
          match s with
          | [] => []
          | x :: t => findall_from dotall p 0 (Some x) t
          end
      end
  end.

Definition findall (dotall : bool) (p : pattern) (s : str) : list str :=
  findall_from dotall p 0 None s.

End Re.

Module OCR.

Import OCRProcessor.

(** Modelled from the spec: [DetectedSlide] of [scene_detector.py], of which
    only [slide_number] is read here. *)
Record DetectedSlide : Type := { slide_number : Z }.

Record OCRResult : Type := mkOCRResult {
  ocr_slide_number : Z;
  raw_text : str;
  structured_markdown : str;
  latex_expressions : list str
}.

(** [r"\$\$(.*?)\$\$"], used with [re.DOTALL]. *)
Definition block_pattern : Re.pattern :=
  [Re.Lit DOLLAR; Re.Lit DOLLAR; Re.LazyAnyGroup; Re.Lit DOLLAR; Re.Lit DOLLAR].

(** [r"(?<!\$)\$(?!\$)(.*?)(?<!\$)\$(?!\$)"], used without flags. *)
Definition inline_pattern : Re.pattern :=
  [Re.NotBehind DOLLAR; Re.Lit DOLLAR; Re.NotAhead DOLLAR; Re.LazyAnyGroup;
   Re.NotBehind DOLLAR; Re.Lit DOLLAR; Re.NotAhead DOLLAR].

Definition block_matches (markdown_text : str) : list str :=
  Re.findall true block_pattern markdown_text.

Definition inline_matches (markdown_text : str) : list str :=
  Re.findall false inline_pattern markdown_text.

Definition _extract_latex (markdown_text : str) : list str :=
  block_matches markdown_text ++ inline_matches markdown_text.

(** The vision client: [analyze_image] answers with a string or raises, and
    may answer differently each time, so the client's state [World] is
    threaded through the calls. The prompt and the system prompt are
    constants of the class and are left out. *)
Section Client.

Variable World : Type.
Variable analyze_image : list Byte.byte -> World -> option str * World.

Definition M (A : Type) : Type := World -> option A * World.

Definition ret {A} (a : A) : M A := fun w => (Some a, w).

Definition bind {A B} (m : M A) (k : A -> M B) : M B :=
  fun w => match m w with
           | (Some a, w') => k a w'
           | (None, w') => (None, w')
           end.

Notation "x <- m ;; k" := (bind m (fun x => k))
  (at level 61, m at next level, right associativity).

Definition process_slide (slide : DetectedSlide) (image_bytes : list Byte.byte)
    : M OCRResult :=
  response <- analyze_image image_bytes ;;
  let cleaned_response := _clean_hallucinations response in
  let latex := _extract_latex cleaned_response in
  ret (mkOCRResult (slide_number slide) response cleaned_response latex).

(** The loop of [process_slides] over [zip(slides, image_bytes_list)], with
    the list [results] built so far. *)
Fixpoint process_zipped (pairs : list (DetectedSlide * list Byte.byte))
    (results : list OCRResult) : M (list OCRResult) :=
  match pairs with
  | [] => ret results
  | (slide, image_bytes) :: pairs' =>
      result <- process_slide slide image_bytes ;;
      process_zipped pairs' (results ++ [result])
  end.

Definition process_slides (slides : list DetectedSlide)
    (image_bytes_list : list (list Byte.byte)) : M (list OCRResult) :=
  process_zipped (combine slides image_bytes_list) [].

End Client.

End OCR.

(** ** stt_processor.py *)

Module STT.

(** Modelled from the spec: the recognition response of the Riva client,
    [Result{alternatives}], [Alternative{transcript, words}] and
    [Word{start_time, end_time}] with offsets in milliseconds. *)
Record WordInfo : Type := mkWord { start_time : Z; end_time : Z }.

Record Alternative : Type := mkAlt {
  transcript : str;
  words : list WordInfo
}.

Record Result : Type := mkResult { alternatives : list Alternative }.

Record TranscriptSegment : Type := mkSegment {
  start : Q;
  end_ : Q;
  text : str
}.

Record TranscriptResult : Type := mkTranscript {
  full_text : str;
  segments : list TranscriptSegment;
  language : str;
  duration_sec : Q
}.

Inductive outcome (A : Type) : Type :=
| Returned (a : A)
| Raised.
Arguments Raised {A}.

Definition KO_KR : str := lit "ko-KR".

(** [ms / 1000.0]. *)
Definition ms_to_sec (ms : Z) : Q := Qmake ms 1000.

(** The literal [999999.0]. *)
Definition BIG_END : Q := (999999 # 1)%Q.

(** The state of the loop over [response.results]. *)
Definition acc : Type := (str * list TranscriptSegment)%type.

(** One iteration of the loop. *)
Definition step (st : acc) (result : Result) : acc :=
  let (full_text, segments) := st in
  match alternatives result with
  | [] => st
  | alt :: _ =>
      let text_chunk := transcript alt in
      let full_text := full_text ++ text_chunk ++ [SP] in
      match words alt with
      | w0 :: ws =>
          let start := ms_to_sec (start_time w0) in
          let end_ := ms_to_sec (end_time (last ws w0)) in
          (full_text, segments ++ [mkSegment start end_ (strip text_chunk)])
      | [] =>
          (full_text, segments ++ [mkSegment 0 BIG_END (strip text_chunk)])
      end
  end.

(** Step 5 of [transcribe]: parsing the response. *)
Definition parse (results : list Result) : TranscriptResult :=
  match results with
  | [] => mkTranscript [] [] KO_KR 0
  | _ =>
      let (full_text, segments) := fold_left step results ([], []) in
      let segments :=
        match segments, strip full_text with
        | [], _ :: _ => segments ++ [mkSegment 0 BIG_END (strip full_text)]
        | _, _ => segments
        end in
      let duration : Q :=
        match segments with
        | [] => 0%Q
        | s :: ss => end_ (last ss s)
        end in
      mkTranscript (strip full_text) segments KO_KR duration
  end.

Definition UNAVAILABLE : TranscriptResult :=
  mkTranscript (lit "[STT unavailable - Riva client not installed]") []
    KO_KR 0.

(** [transcribe]: [available] is [RIVA_AVAILABLE and self.asr_service is not
    None]; [audio] is what reading the file yields ([None] when [open]
    raises); [offline_recognize] is the remote call ([None] when it raises,
    which is re-raised). *)
Definition transcribe (available : bool) (audio : option (list Byte.byte))
    (offline_recognize : list Byte.byte -> option (list Result))
    : outcome TranscriptResult :=
  if negb available then Returned UNAVAILABLE
  else match audio with
       | None => Raised
       | Some audio_bytes =>
           match offline_recognize audio_bytes with
           | None => Raised
           | Some results => Returned (parse results)
           end
       end.

(** The selected alternative of each result that has one, in input order. *)
Definition selected (results : list Result) : list Alternative :=
  flat_map (fun r => match alternatives r with
                     | [] => []
                     | alt :: _ => [alt]
                     end) results.

End STT.

(** ** Vocabulary of the specification and the inputs used as examples *)

Module Spec.

Import OCRProcessor OCR STT.

(** A line of text: no newline inside. *)
Definition is_line (l : str) : Prop := ~ In NL l.

(** The drop rule in the specification's words: the marker occurs more than
    three times, or the line is longer than 500 characters and holds the
    marker at least once. *)
Definition drops (line : str) : bool :=
  (3 <? count MARKER line) || ((500 <? length line) && (1 <=? count MARKER line)).

Definition three_markers : str :=
  MARKER ++ lit " a " ++ MARKER ++ lit " b " ++ MARKER.

Definition four_markers : str := three_markers ++ lit " c " ++ MARKER.

Definition long_with_marker : str := repeat 120%N 587 ++ MARKER.

Definition long_plain : str := repeat 120%N 600.

(** The markdown ["Title\n$$ x+y $$\ninline $z$ text"]. *)
Definition sample_markdown : str :=
  lit "Title" ++ [NL] ++ lit "$$ x+y $$" ++ [NL] ++ lit "inline $z$ text".

(** What the loop of [transcribe] appends for an alternative that has word
    timestamps, and for one that has none. *)
Definition first_start (alt : Alternative) : Z :=
  match words alt with
  | w0 :: _ => start_time w0
  | [] => 0
  end.

Definition last_end (alt : Alternative) : Z :=
  match words alt with
  | w0 :: ws => end_time (last ws w0)
  | [] => 0
  end.

Definition timed_segment (alt : Alternative) : TranscriptSegment :=
  mkSegment (ms_to_sec (first_start alt)) (ms_to_sec (last_end alt))
    (strip (transcript alt)).

Definition sentinel (chunk : str) : TranscriptSegment :=
  mkSegment 0 BIG_END (strip chunk).

Definition segment_of (alt : Alternative) : TranscriptSegment :=
  match words alt with
  | [] => sentinel (transcript alt)
  | _ :: _ => timed_segment alt
  end.

Definition has_words (alt : Alternative) : Prop := words alt <> [].

Definition ordered_by_start (segs : list TranscriptSegment) : Prop :=
  Sorted Qle (map start segs).

Definition well_formed (seg : TranscriptSegment) : Prop :=
  (start seg <= end_ seg)%Q.

(** The timestamps of the input are chronological: the selected
    alternatives begin in non-decreasing order, and none ends before it
    begins. *)
Definition chronological (alts : list Alternative) : Prop :=
  Sorted Z.le (map first_start alts) /\
  Forall (fun alt => (first_start alt <= last_end alt)%Z) alts.

(** [full_text] in the specification's words: the chunks joined by single
    spaces, trimmed. *)
Definition joined_text (results : list Result) : str :=
  strip (join [SP] (map transcript (selected results))).

(** The text the loop has accumulated when it ends. *)
Definition accumulated_text (results : list Result) : str :=
  concat (map (fun alt => transcript alt ++ [SP]) (selected results)).

(** An end that is unbounded lies at or after every point in time. *)
Definition unbounded_end (seg : TranscriptSegment) : Prop :=
  forall t : Q, (t <= end_ seg)%Q.

(** A result with one alternative. *)
Definition result1 (chunk : string) (ws : list WordInfo) : Result :=
  mkResult [mkAlt (lit chunk) ws].

Definition out_of_order : list Result :=
  [result1 "second" [mkWord 5000 4000]; result1 "first" [mkWord 1000 2000]].

Definition two_untimed : list Result := [result1 "a" []; result1 "b" []].

Definition one_untimed : list Result := [result1 "a" []].

(** A run of [transcribe] in which the service is available, the file is
    read and the remote call answers with [results]. *)
Definition answered (results : list Result) : outcome TranscriptResult :=
  transcribe true (Some []) (fun _ => Some results).

(** A vision client that never raises: it answers with the number of the
    call, written as that many dollar signs. *)
Definition counting_client (image_bytes : list Byte.byte) (calls : nat)
    : option str * nat :=
  (Some (repeat DOLLAR calls), S calls).

(** [result] is what [process_slide] returns for [slide] and [image_bytes]
    at some state of the client. *)
Definition produced_from {World : Type}
    (analyze_image : list Byte.byte -> World -> option str * World)
    (result : OCRResult) (pair : DetectedSlide * list Byte.byte) : Prop :=
  ocr_slide_number result = slide_number (fst pair) /\
  exists w w',
    process_slide analyze_image (fst pair) (snd pair) w = (Some result, w').

Definition never_raises {World : Type}
    (analyze_image : list Byte.byte -> World -> option str * World) : Prop :=
  forall image_bytes w, fst (analyze_image image_bytes w) <> None.

End Spec.

(** ** local_client.py: the URLs of stored files *)

Module Storage.

Definition SLASH : char := 47%N.
Definition BACKSLASH : char := 92%N.

(** [s.lstrip(chars)] and [s.rstrip(chars)]: the characters of the set
    [chars] are removed from one end. *)
Fixpoint lstrip_chars (chars s : str) : str :=
  match s with
  | [] => []
  | c :: t => if existsb (N.eqb c) chars then lstrip_chars chars t else s
  end.

Definition rstrip_chars (chars s : str) : str :=
  rev (lstrip_chars chars (rev s)).

(** [s.replace(old, new)] where [old] and [new] are one character each. *)
Definition replace_char (old new : char) (s : str) : str :=
  map (fun c => if (c =? old)%N then new else c) s.

(** The attributes of a client. *)
Record LocalStorageClient : Type := mkClient {
  storage_path : str;
  base_url : str
}.

(** [__init__]: the attributes it sets. It also creates the storage
    directory, which changes the file system and not the client. *)
Definition init (storage_path base_url : str) : LocalStorageClient :=
  mkClient storage_path (rstrip_chars [SLASH] base_url).

Definition _get_file_url (self : LocalStorageClient) (key : str) : str :=
  let url_key := replace_char BACKSLASH SLASH key in
  base_url self ++ [SLASH] ++ url_key.



End Storage.

(** ** Further vocabulary *)

Module Vocabulary.

Import OCRProcessor OCR STT Spec.

(** A string that neither begins nor ends with whitespace. *)
Definition trimmed (s : str) : Prop :=
  (forall c t, s = c :: t -> isspace c = false) /\
  (forall t c, s = t ++ [c] -> isspace c = false).

(** [sub] occurs in [s]. *)
Definition occurs_in (sub s : str) : Prop :=
  exists pre post, s = pre ++ sub ++ post.

(** The end of the segment emitted for an alternative. *)
Definition segment_end (alt : Alternative) : Q :=
  match words alt with
  | [] => (999999 # 1)%Q
  | _ :: _ => ms_to_sec (last_end alt)
  end.

(** What a line of the filter's output satisfies. *)
Definition plausible (line : str) : Prop :=
  count MARKER line <= 3 /\
  (contains MARKER line = true -> length line <= 500).

(** The fields of a result of [process_slide] depend on one another. *)
Definition coherent (r : OCRResult) : Prop :=
  structured_markdown r = _clean_hallucinations (raw_text r) /\
  latex_expressions r = _extract_latex (structured_markdown r) /\
  _clean_hallucinations (structured_markdown r) = structured_markdown r.

(** A vision client that raises from its third call on. *)
Definition failing_client (image_bytes : list Byte.byte) (calls : nat)
    : option str * nat :=
  (if calls <? 2 then Some (repeat DOLLAR calls) else None, S calls).

(** The loop of the lazy star inside [Re.match_here], by itself: [acc] is
    the text taken so far, in reverse. *)
Definition lazy_loop (dotall : bool) (p' : Re.pattern)
    : str -> option char -> str -> option (str * str) :=
  fix lazy (acc : str) (prev : option char) (s : str) {struct s}
    : option (str * str) :=
    match Re.match_here dotall p' prev s with
    | Some (_, r) => Some (rev acc, r)
    | None =>
        match s with
        | x :: t => if Re.dot dotall x then lazy (x :: acc) (Some x) t
                    else None
        | [] => None
        end
    end.

(** The character before the current position once [consumed] has been
    read, [prev] being the character before that. *)
Fixpoint char_before (prev : option char) (consumed : str) : option char :=
  match consumed with
  | [] => prev
  | x :: t => char_before (Some x) t
  end.

(** The length of a joined text, with one separator more. *)
Definition weight (sep : str) (parts : list str) : nat :=
  list_sum (map (fun p => length p + length sep) parts).

End Vocabulary.

(** * Properties *)

(** ** Strings *)

Module PyStrFacts.

Lemma rstrip_app_space (s : str) : rstrip (s ++ [SP]) = rstrip s.
Proof.
  unfold rstrip. rewrite rev_app_distr. reflexivity.
Qed.

Lemma lstrip_app_space (s : str) :
  (lstrip s = [] /\ lstrip (s ++ [SP]) = []) \/
  lstrip (s ++ [SP]) = lstrip s ++ [SP].
Proof.
  induction s as [|c t IH]; simpl.
  - left. split; reflexivity.
  - destruct (isspace c); [exact IH | right; reflexivity].
Qed.

(** A space appended to a string does not survive [strip]. *)
Lemma strip_app_space (s : str) : strip (s ++ [SP]) = strip s.
Proof.
  unfold strip.
  destruct (lstrip_app_space s) as [[E1 E2]|E].
  - rewrite E1, E2. reflexivity.
  - rewrite E. apply rstrip_app_space.
Qed.

Lemma split_nl_nonempty (s : str) : split_nl s <> [].
Proof.
  induction s as [|c t IH]; simpl; [discriminate|].
  destruct (c =? NL)%N; [discriminate|].
  destruct (split_nl t); [contradiction | discriminate].
Qed.

Lemma split_nl_lines (s : str) : Forall (fun l => ~ In NL l) (split_nl s).
Proof.
  induction s as [|c t IH]; simpl.
  - constructor; [intros [] | constructor].
  - destruct (N.eqb_spec c NL) as [E|NE].
    + constructor; [intros [] | exact IH].
    + destruct (split_nl t) as [|l ls].
      * constructor; [|constructor]. intros [E|[]]. congruence.
      * inversion IH as [|? ? Hl Hls]; subst.
        constructor; [|exact Hls].
        intros [E|Hin]; [congruence | exact (Hl Hin)].
Qed.

Lemma join_cons (sep p q : str) (ps : list str) :
  join sep (p :: q :: ps) = p ++ sep ++ join sep (q :: ps).
Proof. reflexivity. Qed.

Lemma split_nl_app_line (l s : str) :
  ~ In NL l ->
  split_nl (l ++ NL :: s) = l :: split_nl s.
Proof.
  induction l as [|c t IH]; intros Hl; simpl.
  - reflexivity.
  - destruct (N.eqb_spec c NL) as [E|NE].
    + exfalso. apply Hl. left. congruence.
    + rewrite IH by (intros Hin; apply Hl; right; exact Hin). reflexivity.
Qed.

Lemma split_nl_line (l : str) : ~ In NL l -> split_nl l = [l].
Proof.
  induction l as [|c t IH]; intros Hl; simpl.
  - reflexivity.
  - destruct (N.eqb_spec c NL) as [E|NE].
    + exfalso. apply Hl. left. congruence.
    + rewrite IH by (intros Hin; apply Hl; right; exact Hin). reflexivity.
Qed.

(** Splitting undoes joining, for a sequence of lines that is not empty. *)
Lemma split_nl_join (l : str) (ls : list str) :
  Forall (fun l => ~ In NL l) (l :: ls) ->
  split_nl (join [NL] (l :: ls)) = l :: ls.
Proof.
  revert l. induction ls as [|q ls IH]; intros l H.
  - simpl. apply split_nl_line. inversion H; assumption.
  - rewrite join_cons.
    inversion H as [|? ? Hl Hls]; subst.
    change ([NL] ++ join [NL] (q :: ls)) with (NL :: join [NL] (q :: ls)).
    rewrite split_nl_app_line by exact Hl.
    rewrite (IH q Hls). reflexivity.
Qed.

(** Joining undoes splitting. *)
Lemma join_split_nl (s : str) : join [NL] (split_nl s) = s.
Proof.
  induction s as [|c t IH]; simpl.
  - reflexivity.
  - destruct (N.eqb_spec c NL) as [E|NE].
    + subst c. pose proof (split_nl_nonempty t) as Hne.
      destruct (split_nl t) as [|l ls]; [contradiction|].
      rewrite join_cons, IH. reflexivity.
    + pose proof (split_nl_nonempty t) as Hne.
      destruct (split_nl t) as [|l ls]; [contradiction|].
      rewrite <- IH. destruct ls; reflexivity.
Qed.

Lemma filter_filter {A} (f : A -> bool) (l : list A) :
  filter f (filter f l) = filter f l.
Proof.
  induction l as [|a l IH]; simpl; [reflexivity|].
  destruct (f a) eqn:E; simpl; [rewrite E, IH|]; auto.
Qed.

Lemma filter_Forall {A} (P : A -> Prop) (f : A -> bool) (l : list A) :
  Forall P l -> Forall P (filter f l).
Proof.
  induction 1 as [|a l Ha Hl IH]; simpl; [constructor|].
  destruct (f a); [constructor|]; assumption.
Qed.

(** [sub in s] holds exactly when [s.count(sub)] is at least one. *)
Lemma contains_count (sub s : str) :
  sub <> [] -> contains sub s = (1 <=? count sub s).
Proof.
  intros Hsub. unfold count.
  induction s as [|c t IH].
  - destruct sub; [contradiction | reflexivity].
  - cbn [contains count_from].
    destruct (startswith sub (c :: t)); [reflexivity | exact IH].
Qed.

End PyStrFacts.

(** ** The hallucination filter *)

Module CleanFacts.

Import OCRProcessor OCR Spec PyStrFacts.

Lemma MARKER_nonempty : MARKER <> [].
Proof. discriminate. Qed.

(** The test of the loop is the drop rule of the specification. *)
Lemma keeps_drops (line : str) : keeps line = negb (drops line).
Proof.
  unfold keeps, drops.
  rewrite (contains_count line MARKER_nonempty).
  destruct (3 <? count MARKER line), (500 <? length line),
    (1 <=? count MARKER line); reflexivity.
Qed.

(** On a text given as its lines, the filter keeps the lines that pass the
    test, in order. *)
Lemma clean_join (lines : list str) :
  Forall is_line lines ->
  _clean_hallucinations (join [NL] lines) = join [NL] (filter keeps lines).
Proof.
  intros H. unfold _clean_hallucinations.
  destruct lines as [|l ls]; [reflexivity|].
  rewrite (split_nl_join H). reflexivity.
Qed.

Lemma filter_keeps_drops (lines : list str) :
  filter keeps lines = filter (fun l => negb (drops l)) lines.
Proof. apply filter_ext. intros l. apply keeps_drops. Qed.

(** C6: a line is dropped exactly when the marker occurs more than three
    times in it, or it is longer than 500 characters and contains the
    marker: the filter applied to a text made of [lines] returns the lines
    the rule does not drop, rejoined in order. A line with four markers is
    dropped and one with three is kept; a line of 600 characters is dropped
    when it contains the marker and kept when it does not. *)
Theorem clean_hallucinations_drop_rule :
  (forall lines : list str,
      Forall is_line lines ->
      _clean_hallucinations (join [NL] lines)
      = join [NL] (filter (fun l => negb (drops l)) lines)) /\
  (count MARKER four_markers = 4 /\
   _clean_hallucinations (join [NL] [lit "a"; four_markers; lit "b"])
   = join [NL] [lit "a"; lit "b"]) /\
  (count MARKER three_markers = 3 /\
   _clean_hallucinations (join [NL] [lit "a"; three_markers; lit "b"])
   = join [NL] [lit "a"; three_markers; lit "b"]) /\
  (length long_with_marker = 600 /\ contains MARKER long_with_marker = true /\
   _clean_hallucinations (join [NL] [lit "a"; long_with_marker; lit "b"])
   = join [NL] [lit "a"; lit "b"]) /\
  (length long_plain = 600 /\ contains MARKER long_plain = false /\
   _clean_hallucinations (join [NL] [lit "a"; long_plain; lit "b"])
   = join [NL] [lit "a"; long_plain; lit "b"]).
Proof.
  split.
  - intros lines H. rewrite (clean_join H), filter_keeps_drops. reflexivity.
  - repeat split; vm_compute; reflexivity.
Qed.

Lemma clean_hallucinations_drop_rule_witness :
  _clean_hallucinations (join [NL] [lit "x"; four_markers])
  = join [NL] (filter (fun l => negb (drops l)) [lit "x"; four_markers]).
Proof.
  apply (proj1 clean_hallucinations_drop_rule).
  repeat constructor; unfold is_line; vm_compute; intuition discriminate.
Defined.

(** C7: the filter is idempotent. *)
Theorem clean_hallucinations_idempotent (s : str) :
  _clean_hallucinations (_clean_hallucinations s) = _clean_hallucinations s.
Proof.
  unfold _clean_hallucinations at 2 3.
  rewrite clean_join.
  - rewrite filter_filter. reflexivity.
  - apply filter_Forall. apply split_nl_lines.
Qed.

End CleanFacts.

(** ** Formula extraction and slide processing *)

Module OCRFacts.

Import OCRProcessor OCR Spec.

(** C4, as the specification states it, fails: the inline pass does not
    return [" z "] on the sample markdown. *)
Lemma extract_latex_sample_not_as_stated :
  ~ (block_matches sample_markdown = [lit " x+y "] /\
     inline_matches sample_markdown = [lit " z "] /\
     _extract_latex sample_markdown = [lit " x+y "; lit " z "]).
Proof.
  intros (_ & H & _). vm_compute in H. discriminate H.
Qed.

(** C4, amended: on the sample markdown the block pass yields [" x+y "],
    the inline pass yields ["z"], the text between the two single dollar
    signs, and the combined list is [" x+y "; "z"]. *)
Theorem extract_latex_sample :
  block_matches sample_markdown = [lit " x+y "] /\
  inline_matches sample_markdown = [lit "z"] /\
  _extract_latex sample_markdown = [lit " x+y "; lit "z"].
Proof. repeat split; vm_compute; reflexivity. Qed.

Section Client.

Variable World : Type.
Variable analyze_image : list Byte.byte -> World -> option str * World.
Hypothesis client_ok : never_raises analyze_image.

Lemma process_slide_returns slide image_bytes w :
  exists result w',
    process_slide analyze_image slide image_bytes w = (Some result, w') /\
    ocr_slide_number result = slide_number slide.
Proof.
  unfold process_slide, bind, ret.
  pose proof (client_ok image_bytes w) as Hok.
  destruct (analyze_image image_bytes w) as [[response|] w'];
    [|contradiction Hok; reflexivity].
  eexists. eexists. split; reflexivity.
Qed.

(** The loop returns the results it was entered with, followed by one
    result for each pair, in order. *)
Lemma process_zipped_returns pairs :
  forall results w,
  exists new w',
    process_zipped analyze_image pairs results w = (Some (results ++ new), w') /\
    Forall2 (produced_from analyze_image) new pairs.
Proof.
  induction pairs as [|[slide image_bytes] pairs IH]; intros results w.
  - exists [], w. rewrite app_nil_r. split; [reflexivity | constructor].
  - cbn [process_zipped]. unfold bind at 1.
    destruct (process_slide_returns slide image_bytes w) as (r & w1 & E & Hn).
    rewrite E.
    destruct (IH (results ++ [r]) w1) as (new & w' & E' & HF).
    exists (r :: new), w'. split.
    + rewrite E', <- app_assoc. reflexivity.
    + constructor; [|exact HF].
      split; [exact Hn|]. exists w, w1. exact E.
Qed.

End Client.

Lemma combine_firstn_min {A B} (l : list A) (l' : list B) :
  combine (firstn (min (length l) (length l')) l)
          (firstn (min (length l) (length l')) l')
  = combine l l'.
Proof.
  rewrite <- combine_firstn, <- length_combine. apply firstn_all.
Qed.

(** C9: [process_slides] pairs the slides and the images by position and
    returns one result for each pair, [min (len slides) (len images)] in
    all, in input order; what is left over of the longer list is ignored.
    This holds for lists of any lengths, equal or not, whenever the vision
    client does not raise. *)
Theorem process_slides_zip
    (World : Type)
    (analyze_image : list Byte.byte -> World -> option str * World)
    (slides : list DetectedSlide) (image_bytes_list : list (list Byte.byte))
    (w : World) :
  never_raises analyze_image ->
  let n := min (length slides) (length image_bytes_list) in
  exists results w',
    process_slides analyze_image slides image_bytes_list w = (Some results, w') /\
    length results = n /\
    Forall2 (produced_from analyze_image) results
      (combine (firstn n slides) (firstn n image_bytes_list)) /\
    process_slides analyze_image (firstn n slides) (firstn n image_bytes_list) w
    = (Some results, w').
Proof.
  intros Hok n. unfold process_slides.
  destruct (process_zipped_returns Hok (combine slides image_bytes_list) [] w)
    as (new & w' & E & HF).
  exists new, w'. subst n. rewrite combine_firstn_min.
  repeat split; try assumption.
  rewrite (Forall2_length HF). apply length_combine.
Qed.

Lemma process_slides_zip_witness :
  exists results w',
    process_slides counting_client
      [Build_DetectedSlide 1; Build_DetectedSlide 2; Build_DetectedSlide 3]
      [[]; []] 0
    = (Some results, w') /\ length results = 2.
Proof.
  destruct (@process_slides_zip nat counting_client
              [Build_DetectedSlide 1; Build_DetectedSlide 2; Build_DetectedSlide 3]
              [[]; []] 0) as (results & w' & E & L & _).
  - intros b c. discriminate.
  - exists results, w'. split; [exact E | exact L].
Defined.

End OCRFacts.

(** ** The transcript *)

Module STTFacts.

Import STT Spec PyStrFacts.

Lemma selected_app (l1 l2 : list Result) :
  selected (l1 ++ l2) = selected l1 ++ selected l2.
Proof. unfold selected. apply flat_map_app. Qed.

(** The loop appends to both accumulators, one chunk and one segment for
    each result that has an alternative. *)
Lemma fold_step (results : list Result) :
  forall full_text segments,
    fold_left step results (full_text, segments)
    = (full_text ++ accumulated_text results,
       segments ++ map segment_of (selected results)).
Proof.
  induction results as [|r rs IH]; intros ft sg.
  - cbn. rewrite !app_nil_r. reflexivity.
  - cbn [fold_left]. unfold step at 2.
    unfold accumulated_text, selected in *. cbn [flat_map].
    destruct (alternatives r) as [|alt alts].
    + rewrite IH. reflexivity.
    + unfold segment_of, sentinel, timed_segment, first_start, last_end.
      destruct (words alt) as [|w0 ws] eqn:Ew; rewrite IH;
        cbn [app map concat]; rewrite ?Ew, <- !app_assoc; reflexivity.
Qed.

Lemma selected_nil_text (results : list Result) :
  selected results = [] -> accumulated_text results = [].
Proof. unfold accumulated_text. intros ->. reflexivity. Qed.

(** The segments of the result are those of the loop: when the loop has
    emitted none, it has accumulated no text either. *)
Lemma parse_segments (results : list Result) :
  segments (parse results) = map segment_of (selected results).
Proof.
  destruct results as [|r rs]; [reflexivity|].
  unfold parse. rewrite fold_step. cbn [app].
  destruct (map segment_of (selected (r :: rs))) as [|s ss] eqn:E.
  - apply map_eq_nil in E. rewrite (selected_nil_text _ E). reflexivity.
  - reflexivity.
Qed.

Lemma parse_full_text (results : list Result) :
  full_text (parse results) = strip (accumulated_text results).
Proof.
  destruct results as [|r rs]; [reflexivity|].
  unfold parse. rewrite fold_step. reflexivity.
Qed.

Lemma transcribe_parse audio (offline_recognize : _ -> option (list Result))
    results :
  offline_recognize audio = Some results ->
  transcribe true (Some audio) offline_recognize = Returned (parse results).
Proof. intros E. unfold transcribe. cbn. rewrite E. reflexivity. Qed.

Lemma concat_spaced (chunks : list str) :
  concat (map (fun c => c ++ [SP]) chunks)
  = match chunks with
    | [] => []
    | _ :: _ => join [SP] chunks ++ [SP]
    end.
Proof.
  induction chunks as [|c cs IH]; [reflexivity|].
  cbn [map concat]. rewrite IH.
  destruct cs as [|d cs]; [apply app_nil_r|].
  rewrite join_cons, <- !app_assoc. reflexivity.
Qed.

Lemma strip_accumulated (results : list Result) :
  strip (accumulated_text results) = joined_text results.
Proof.
  unfold accumulated_text, joined_text.
  rewrite <- (map_map transcript (fun c => c ++ [SP])), concat_spaced.
  destruct (map transcript (selected results)); [reflexivity|].
  apply strip_app_space.
Qed.

Lemma ms_to_sec_le (a b : Z) : (ms_to_sec a <= ms_to_sec b)%Q <-> (a <= b)%Z.
Proof. unfold ms_to_sec, Qle. cbn. lia. Qed.

Lemma sorted_ms_to_sec {A} (f : A -> Z) (l : list A) :
  Sorted Qle (map (fun a => ms_to_sec (f a)) l) <-> Sorted Z.le (map f l).
Proof.
  induction l as [|a l IH]; cbn [map].
  - split; constructor.
  - split; intros H; apply Sorted_inv in H; destruct H as [Hs Hh];
      (constructor; [apply IH; exact Hs|]);
      destruct l; cbn [map] in *; constructor;
      apply HdRel_inv in Hh; apply ms_to_sec_le; exact Hh.
Qed.

Lemma segment_of_timed (alts : list Alternative) :
  Forall has_words alts -> map segment_of alts = map timed_segment alts.
Proof.
  induction 1 as [|a l Ha Hl IH]; [reflexivity|].
  cbn [map]. rewrite IH. f_equal.
  unfold segment_of. unfold has_words in Ha.
  destruct (words a); [contradiction | reflexivity].
Qed.

Lemma segment_of_sentinel (alts : list Alternative) :
  Forall (fun alt => words alt = []) alts ->
  map segment_of alts = map (fun alt => sentinel (transcript alt)) alts.
Proof.
  induction 1 as [|a l Ha Hl IH]; [reflexivity|].
  cbn [map]. rewrite IH. f_equal.
  unfold segment_of. rewrite Ha. reflexivity.
Qed.

Lemma timed_chronological (alts : list Alternative) :
  ordered_by_start (map timed_segment alts) /\
  Forall well_formed (map timed_segment alts)
  <-> chronological alts.
Proof.
  unfold ordered_by_start, chronological.
  rewrite map_map. cbn [timed_segment start].
  rewrite sorted_ms_to_sec, Forall_map.
  split; intros [Hs Hf]; (split; [exact Hs|]);
    (eapply Forall_impl; [|exact Hf]); intros a;
    unfold well_formed; cbn; apply ms_to_sec_le.
Qed.

(** The segment emitted for one result, between those of the results before
    and after it. *)
Lemma segments_around audio (offline_recognize : _ -> option (list Result))
    pre r post alt :
  offline_recognize audio = Some (pre ++ r :: post) ->
  hd_error (alternatives r) = Some alt ->
  exists tr,
    transcribe true (Some audio) offline_recognize = Returned tr /\
    segments tr = map segment_of (selected pre) ++
                  segment_of alt :: map segment_of (selected post).
Proof.
  intros E Halt. exists (parse (pre ++ r :: post)).
  split; [apply transcribe_parse; exact E|].
  rewrite parse_segments, selected_app, map_app. f_equal.
  unfold selected at 1. cbn [flat_map].
  destruct (alternatives r) as [|a alts]; [discriminate|].
  injection Halt as ->. reflexivity.
Qed.

End STTFacts.

Module TranscribeFacts.

Import STT Spec PyStrFacts STTFacts.

(** C1, as the specification states it, fails: every selected alternative
    of [out_of_order] has word timestamps, yet the segments are neither
    ordered by start nor all well formed. *)
Lemma transcribe_out_of_order :
  exists tr,
    answered out_of_order = Returned tr /\
    Forall has_words (selected out_of_order) /\
    ~ ordered_by_start (segments tr) /\
    ~ Forall well_formed (segments tr).
Proof.
  eexists. split; [reflexivity|]. split; [|split].
  - repeat constructor; discriminate.
  - intros H. apply Sorted_inv in H. destruct H as [_ H].
    apply HdRel_inv in H. vm_compute in H. apply H. reflexivity.
  - intros H. apply Forall_inv in H. vm_compute in H. apply H. reflexivity.
Qed.

(** C1, amended: when every selected alternative has word timestamps, the
    segments are, in input order, one per selected alternative, from the
    first word's [start_time / 1000] to the last word's [end_time / 1000];
    they are ordered by non-decreasing start and all satisfy start <= end
    exactly when the timestamps of the input are chronological. *)
Theorem transcribe_timed_segments audio
    (offline_recognize : list Byte.byte -> option (list Result)) results :
  offline_recognize audio = Some results ->
  Forall has_words (selected results) ->
  exists tr,
    transcribe true (Some audio) offline_recognize = Returned tr /\
    segments tr = map timed_segment (selected results) /\
    (ordered_by_start (segments tr) /\ Forall well_formed (segments tr)
     <-> chronological (selected results)).
Proof.
  intros E Hw. exists (parse results).
  split; [apply transcribe_parse; exact E|].
  rewrite parse_segments, (segment_of_timed Hw).
  split; [reflexivity | apply timed_chronological].
Qed.

Lemma transcribe_timed_segments_witness :
  exists tr,
    answered [result1 "a" [mkWord 0 400; mkWord 500 900];
              result1 "b" [mkWord 1000 2000]] = Returned tr /\
    map start (segments tr) = [ms_to_sec 0; ms_to_sec 1000] /\
    map end_ (segments tr) = [ms_to_sec 900; ms_to_sec 2000].
Proof.
  destruct (@transcribe_timed_segments [] (fun _ => Some
              [result1 "a" [mkWord 0 400; mkWord 500 900];
               result1 "b" [mkWord 1000 2000]]) _ eq_refl)
    as (tr & E & S & _).
  - repeat constructor; discriminate.
  - exists tr. split; [exact E|]. rewrite S. split; reflexivity.
Defined.

(** C2: [full_text] is the trimmed, single-space-joined concatenation of
    the selected alternatives' transcripts, in input order. *)
Theorem transcribe_full_text audio
    (offline_recognize : list Byte.byte -> option (list Result)) results :
  offline_recognize audio = Some results ->
  exists tr,
    transcribe true (Some audio) offline_recognize = Returned tr /\
    full_text tr = joined_text results.
Proof.
  intros E. exists (parse results).
  split; [apply transcribe_parse; exact E|].
  rewrite parse_full_text. apply strip_accumulated.
Qed.

Lemma transcribe_full_text_witness :
  exists tr,
    answered [result1 " a" []; mkResult []; result1 "b " [mkWord 1 2]]
    = Returned tr /\
    full_text tr = lit "a b".
Proof.
  destruct (@transcribe_full_text [] (fun _ => Some
              [result1 " a" []; mkResult []; result1 "b " [mkWord 1 2]])
              _ eq_refl) as (tr & E & T).
  exists tr. split; [exact E|]. rewrite T. reflexivity.
Defined.

(** C3, as the specification states it, fails: no selected alternative of
    [two_untimed] has word timestamps and the text is not empty, yet two
    segments are emitted, none of which holds the whole text. *)
Lemma transcribe_two_untimed :
  exists tr,
    answered two_untimed = Returned tr /\
    Forall (fun alt => words alt = []) (selected two_untimed) /\
    full_text tr <> [] /\
    length (segments tr) = 2 /\
    ~ (exists seg, segments tr = [seg] /\ text seg = full_text tr).
Proof.
  eexists. split; [reflexivity|]. split; [|split; [|split]].
  - repeat constructor.
  - discriminate.
  - reflexivity.
  - intros (seg & H & _). discriminate H.
Qed.

(** C3, amended: when no selected alternative has word timestamps, one
    sentinel segment is emitted for each result that has an alternative,
    with the trimmed chunk as its text; when there is exactly one such
    result, exactly one sentinel segment is emitted and its text is the
    whole trimmed transcript text. *)
Theorem transcribe_untimed_segments audio
    (offline_recognize : list Byte.byte -> option (list Result)) results :
  offline_recognize audio = Some results ->
  Forall (fun alt => words alt = []) (selected results) ->
  exists tr,
    transcribe true (Some audio) offline_recognize = Returned tr /\
    segments tr = map (fun alt => sentinel (transcript alt)) (selected results) /\
    (forall alt, selected results = [alt] ->
                 segments tr = [mkSegment 0 BIG_END (full_text tr)]).
Proof.
  intros E Hw. exists (parse results).
  split; [apply transcribe_parse; exact E|].
  rewrite parse_segments, (segment_of_sentinel Hw), parse_full_text.
  split; [reflexivity|].
  intros alt Hs. unfold accumulated_text. rewrite Hs. cbn [map concat].
  rewrite app_nil_r, strip_app_space. reflexivity.
Qed.

Lemma transcribe_untimed_segments_witness :
  exists tr,
    answered [mkResult []; result1 " a b " []] = Returned tr /\
    segments tr = [mkSegment 0 BIG_END (lit "a b")] /\
    full_text tr = lit "a b".
Proof.
  destruct (@transcribe_untimed_segments [] (fun _ => Some
              [mkResult []; result1 " a b " []]) _ eq_refl)
    as (tr & E & S & _).
  - repeat constructor.
  - exists tr. split; [exact E|]. rewrite S.
    split; [reflexivity|].
    injection E as <-. reflexivity.
Defined.

End TranscribeFacts.

Module SentinelFacts.

Import STT Spec PyStrFacts STTFacts.

(** C5, as the specification states it, fails: the sentinel segment emitted
    for [one_untimed] ends at the number 999999, which is not unbounded:
    one million seconds lies after it. *)
Lemma transcribe_sentinel_end_is_a_number :
  exists tr seg,
    answered one_untimed = Returned tr /\
    segments tr = [seg] /\
    end_ seg = (999999 # 1)%Q /\
    ~ unbounded_end seg.
Proof.
  eexists. eexists. split; [reflexivity|]. split; [reflexivity|].
  split; [reflexivity|].
  intros H. specialize (H (1000000 # 1)%Q). vm_compute in H.
  apply H. reflexivity.
Qed.

(** C5, amended: for a result whose selected alternative has no word
    timestamps and a non-empty transcript, a sentinel segment is emitted in
    the result's place among the segments; it starts at 0, ends at the
    literal number 999999.0 (the segment has no marker for an unbounded
    end), and its text is the trimmed chunk. *)
Theorem transcribe_untimed_chunk audio
    (offline_recognize : list Byte.byte -> option (list Result))
    pre r post alt :
  offline_recognize audio = Some (pre ++ r :: post) ->
  hd_error (alternatives r) = Some alt ->
  words alt = [] ->
  transcript alt <> [] ->
  exists tr,
    transcribe true (Some audio) offline_recognize = Returned tr /\
    segments tr = map segment_of (selected pre) ++
                  mkSegment 0 (999999 # 1) (strip (transcript alt))
                  :: map segment_of (selected post).
Proof.
  intros E Halt Hw _.
  destruct (@segments_around _ _ _ _ _ _ E Halt) as (tr & Et & Es).
  exists tr. split; [exact Et|]. rewrite Es.
  unfold segment_of at 2. rewrite Hw. reflexivity.
Qed.

Lemma transcribe_untimed_chunk_witness :
  exists tr,
    answered [result1 "x" [mkWord 0 1000]; result1 " hello " [];
              result1 "y" [mkWord 2000 3000]] = Returned tr /\
    segments tr = [mkSegment (ms_to_sec 0) (ms_to_sec 1000) (lit "x");
                   mkSegment 0 (999999 # 1) (lit "hello");
                   mkSegment (ms_to_sec 2000) (ms_to_sec 3000) (lit "y")].
Proof.
  destruct (@transcribe_untimed_chunk [] (fun _ => Some
              ([result1 "x" [mkWord 0 1000]] ++ result1 " hello " []
               :: [result1 "y" [mkWord 2000 3000]]))
              [result1 "x" [mkWord 0 1000]] (result1 " hello " [])
              [result1 "y" [mkWord 2000 3000]] (mkAlt (lit " hello ") [])
              eq_refl eq_refl eq_refl) as (tr & E & S).
  - discriminate.
  - exists tr. split; [exact E|]. rewrite S. reflexivity.
Defined.

(** C8: a response without results makes [transcribe] return, without
    raising, the result with empty text, no segments and duration 0. *)
Theorem transcribe_no_results audio
    (offline_recognize : list Byte.byte -> option (list Result)) :
  offline_recognize audio = Some [] ->
  transcribe true (Some audio) offline_recognize
  = Returned (mkTranscript [] [] KO_KR 0).
Proof. intros E. rewrite (transcribe_parse _ _ E). reflexivity. Qed.

Lemma transcribe_no_results_witness :
  answered [] = Returned (mkTranscript [] [] (lit "ko-KR") 0).
Proof.
  apply (@transcribe_no_results [] (fun _ => Some [])). reflexivity.
Defined.

(** C10: a result whose selected alternative has no word timestamps and an
    empty transcript is not skipped: a sentinel segment with empty text,
    from 0 to 999999.0, is emitted in its place, so the output has one
    segment more than the other results account for. *)
Theorem transcribe_empty_chunk audio
    (offline_recognize : list Byte.byte -> option (list Result))
    pre r post alt :
  offline_recognize audio = Some (pre ++ r :: post) ->
  hd_error (alternatives r) = Some alt ->
  words alt = [] ->
  transcript alt = [] ->
  exists tr,
    transcribe true (Some audio) offline_recognize = Returned tr /\
    segments tr = map segment_of (selected pre) ++
                  mkSegment 0 (999999 # 1) []
                  :: map segment_of (selected post) /\
    length (segments tr)
    = S (length (selected pre) + length (selected post)).
Proof.
  intros E Halt Hw Ht.
  destruct (@segments_around _ _ _ _ _ _ E Halt) as (tr & Et & Es).
  exists tr. split; [exact Et|]. rewrite Es.
  unfold segment_of at 2. rewrite Hw. unfold sentinel. rewrite Ht.
  split; [reflexivity|].
  rewrite length_app. cbn [length]. rewrite !length_map. lia.
Qed.

Lemma transcribe_empty_chunk_witness :
  exists tr,
    answered [result1 "" []] = Returned tr /\
    segments tr = [mkSegment 0 (999999 # 1) []].
Proof.
  destruct (@transcribe_empty_chunk [] (fun _ => Some ([] ++ [result1 "" []]))
              [] (result1 "" []) [] (mkAlt [] [])
              eq_refl eq_refl eq_refl eq_refl) as (tr & E & S & _).
  exists tr. split; [exact E | exact S].
Defined.

End SentinelFacts.

(** * Further properties *)

(** ** More on strings *)

Module TrimFacts.

Import Vocabulary.

Lemma lstrip_head (s : str) c t : lstrip s = c :: t -> isspace c = false.
Proof.
  induction s as [|x s IH]; simpl; [discriminate|].
  destruct (isspace x) eqn:E; [exact IH|].
  intros H. injection H as <- _. exact E.
Qed.

Lemma lstrip_suffix (s : str) : exists sp, s = sp ++ lstrip s.
Proof.
  induction s as [|x s [sp IH]]; simpl.
  - exists []. reflexivity.
  - destruct (isspace x).
    + exists (x :: sp). simpl. f_equal. exact IH.
    + exists []. reflexivity.
Qed.

Lemma rstrip_last (s : str) t c : rstrip s = t ++ [c] -> isspace c = false.
Proof.
  unfold rstrip. intros H.
  apply (f_equal (@rev _)) in H.
  rewrite rev_involutive, rev_app_distr in H. simpl in H.
  exact (@lstrip_head _ _ _ H).
Qed.

Lemma rstrip_prefix (s : str) : exists sp, s = rstrip s ++ sp.
Proof.
  unfold rstrip. destruct (lstrip_suffix (rev s)) as [sp E].
  exists (rev sp).
  rewrite <- rev_app_distr, <- E, rev_involutive. reflexivity.
Qed.

(** What [strip] returns neither begins nor ends with whitespace. *)
Lemma strip_trimmed (s : str) : trimmed (strip s).
Proof.
  unfold strip. split.
  - intros c t H.
    destruct (rstrip_prefix (lstrip s)) as [sp E].
    rewrite H in E. exact (@lstrip_head s _ _ E).
  - intros t c H. exact (@rstrip_last _ _ _ H).
Qed.

End TrimFacts.

(** ** More on the transcript *)

Module ParseFacts.

Import STT Spec Vocabulary PyStrFacts STTFacts TrimFacts.

Lemma last_map {A B} (f : A -> B) (l : list A) (a : A) :
  last (map f l) (f a) = f (last l a).
Proof.
  revert a. induction l as [|x l IH]; intros a; [reflexivity|].
  cbn [map]. destruct l as [|y l]; [reflexivity|].
  change (last (f x :: map f (y :: l)) (f a)) with (last (map f (y :: l)) (f a)).
  change (last (x :: y :: l) a) with (last (y :: l) a).
  apply IH.
Qed.

Lemma segment_of_end (alt : Alternative) : end_ (segment_of alt) = segment_end alt.
Proof.
  unfold segment_of, segment_end. destruct (words alt); reflexivity.
Qed.

Lemma parse_duration (results : list Result) :
  duration_sec (parse results)
  = match selected results with
    | [] => 0%Q
    | alt :: alts => segment_end (last alts alt)
    end.
Proof.
  destruct results as [|r rs]; [reflexivity|].
  unfold parse. rewrite fold_step. cbn [app].
  destruct (selected (r :: rs)) as [|alt alts] eqn:E.
  - rewrite (selected_nil_text _ E). reflexivity.
  - cbn [map duration_sec]. rewrite last_map. apply segment_of_end.
Qed.

Lemma parse_language (results : list Result) : language (parse results) = KO_KR.
Proof.
  destruct results as [|r rs]; [reflexivity|].
  unfold parse. rewrite fold_step. reflexivity.
Qed.

Lemma result_eq (a b : TranscriptResult) :
  full_text a = full_text b -> segments a = segments b ->
  language a = language b -> duration_sec a = duration_sec b -> a = b.
Proof. destruct a, b. cbn. intros; subst; reflexivity. Qed.

(** X1: the result depends on the response only through the first
    alternative of each result that has one: results without alternatives
    and alternatives after the first make no difference. *)
Theorem transcribe_selected_only audio
    (offline_recognize offline_recognize' : list Byte.byte -> option (list Result))
    results results' :
  offline_recognize audio = Some results ->
  offline_recognize' audio = Some results' ->
  selected results = selected results' ->
  transcribe true (Some audio) offline_recognize
  = transcribe true (Some audio) offline_recognize'.
Proof.
  intros E E' Hs.
  rewrite (transcribe_parse _ _ E), (transcribe_parse _ _ E').
  f_equal. apply result_eq.
  - rewrite !parse_full_text. unfold accumulated_text. rewrite Hs. reflexivity.
  - rewrite !parse_segments, Hs. reflexivity.
  - rewrite !parse_language. reflexivity.
  - rewrite !parse_duration, Hs. reflexivity.
Qed.

Lemma transcribe_selected_only_witness :
  answered [mkResult []; mkResult [mkAlt (lit "a") []; mkAlt (lit "b") []]]
  = answered [result1 "a" []].
Proof.
  apply (@transcribe_selected_only [] (fun _ => Some
           [mkResult []; mkResult [mkAlt (lit "a") []; mkAlt (lit "b") []]])
           (fun _ => Some [result1 "a" []]) _ _ eq_refl eq_refl).
  reflexivity.
Defined.

(** X2: the duration is 0 when no result has an alternative; otherwise it
    is decided by the last result that has one: the last word's
    [end_time / 1000] when its alternative has word timestamps, and the
    number 999999 when it has none, whatever the other results hold. *)
Theorem transcribe_duration audio
    (offline_recognize : list Byte.byte -> option (list Result)) results :
  offline_recognize audio = Some results ->
  exists tr,
    transcribe true (Some audio) offline_recognize = Returned tr /\
    duration_sec tr
    = match selected results with
      | [] => 0%Q
      | alt :: alts =>
          match words (last alts alt) with
          | [] => (999999 # 1)%Q
          | w0 :: ws => ms_to_sec (end_time (last ws w0))
          end
      end.
Proof.
  intros E. exists (parse results).
  split; [apply transcribe_parse; exact E|].
  rewrite parse_duration.
  destruct (selected results) as [|alt alts]; [reflexivity|].
  unfold segment_end, last_end. destruct (words (last alts alt)); reflexivity.
Qed.

Lemma transcribe_duration_witness :
  exists tr,
    answered [result1 "a" [mkWord 0 1500]; result1 "b" []] = Returned tr /\
    duration_sec tr = (999999 # 1)%Q.
Proof.
  destruct (@transcribe_duration [] (fun _ => Some
              [result1 "a" [mkWord 0 1500]; result1 "b" []]) _ eq_refl)
    as (tr & E & D).
  exists tr. split; [exact E | exact D].
Defined.

(** X3: there is one segment for each result that has an alternative; when
    there is no segment, the text is empty and the duration is 0, so the
    segment for the whole text that follows the loop is never added. *)
Theorem transcribe_segment_count audio
    (offline_recognize : list Byte.byte -> option (list Result)) results :
  offline_recognize audio = Some results ->
  exists tr,
    transcribe true (Some audio) offline_recognize = Returned tr /\
    length (segments tr) = length (selected results) /\
    (segments tr = [] -> full_text tr = [] /\ duration_sec tr = 0%Q).
Proof.
  intros E. exists (parse results).
  split; [apply transcribe_parse; exact E|].
  rewrite parse_segments, length_map. split; [reflexivity|].
  intros H. apply map_eq_nil in H.
  rewrite parse_full_text, parse_duration, (selected_nil_text _ H), H.
  split; reflexivity.
Qed.

Lemma transcribe_segment_count_witness :
  exists tr,
    answered [mkResult []; result1 "a" []; mkResult []] = Returned tr /\
    length (segments tr) = 1.
Proof.
  destruct (@transcribe_segment_count [] (fun _ => Some
              [mkResult []; result1 "a" []; mkResult []]) _ eq_refl)
    as (tr & E & L & _).
  exists tr. split; [exact E | exact L].
Defined.



(** X5: the text of every segment and the full text neither begin nor end
    with whitespace. *)
Theorem transcribe_texts_trimmed audio
    (offline_recognize : list Byte.byte -> option (list Result)) results :
  offline_recognize audio = Some results ->
  exists tr,
    transcribe true (Some audio) offline_recognize = Returned tr /\
    trimmed (full_text tr) /\
    Forall (fun seg => trimmed (text seg)) (segments tr).
Proof.
  intros E. exists (parse results).
  split; [apply transcribe_parse; exact E|].
  rewrite parse_full_text, parse_segments.
  split; [apply strip_trimmed|].
  apply Forall_map, Forall_forall. intros alt _.
  unfold segment_of, sentinel, timed_segment.
  destruct (words alt); cbn [text]; apply strip_trimmed.
Qed.

Lemma transcribe_texts_trimmed_witness :
  exists tr,
    answered [result1 "  a b  " []] = Returned tr /\
    trimmed (full_text tr).
Proof.
  destruct (@transcribe_texts_trimmed [] (fun _ => Some
              [result1 "  a b  " []]) _ eq_refl) as (tr & E & T & _).
  exists tr. split; [exact E | exact T].
Defined.

(** X6: the segments of a response are those of its first part followed by
    those of the rest, wherever the response is cut. *)
Theorem parse_segments_app (results1 results2 : list Result) :
  segments (parse (results1 ++ results2))
  = segments (parse results1) ++ segments (parse results2).
Proof.
  rewrite !parse_segments, selected_app, map_app. reflexivity.
Qed.

End ParseFacts.

(** ** More on the hallucination filter *)

Module FilterFacts.

Import OCRProcessor OCR Spec Vocabulary PyStrFacts CleanFacts.

Lemma weight_cons (sep p : str) (ps : list str) :
  weight sep (p :: ps) = length p + length sep + weight sep ps.
Proof. reflexivity. Qed.

Lemma join_length (sep : str) (parts : list str) :
  length (join sep parts) = weight sep parts - length sep.
Proof.
  induction parts as [|p ps IH]; [reflexivity|].
  destruct ps as [|q ps].
  - cbn. lia.
  - rewrite join_cons, !length_app, IH, !weight_cons. lia.
Qed.

Lemma weight_filter (sep : str) (f : str -> bool) (parts : list str) :
  weight sep (filter f parts) <= weight sep parts.
Proof.
  induction parts as [|p ps IH]; [constructor|].
  cbn [filter]. destruct (f p); rewrite !weight_cons; lia.
Qed.

(** X7: the filter only removes: its output is never longer than its
    input. *)
Theorem clean_hallucinations_shrinks (text : str) :
  length (_clean_hallucinations text) <= length text.
Proof.
  unfold _clean_hallucinations.
  rewrite <- (join_split_nl text) at 2.
  rewrite !join_length.
  pose proof (weight_filter [NL] keeps (split_nl text)). lia.
Qed.

Lemma startswith_app (sub s post : str) :
  startswith sub s = true -> startswith sub (s ++ post) = true.
Proof.
  revert s. induction sub as [|a sub IH]; intros s; [reflexivity|].
  destruct s as [|b s]; [discriminate|]. cbn.
  intros H. apply andb_true_iff in H. destruct H as [H1 H2].
  rewrite H1. cbn. apply IH. exact H2.
Qed.

Lemma contains_app_r (sub s post : str) :
  contains sub s = true -> contains sub (s ++ post) = true.
Proof.
  induction s as [|c s IH]; cbn [contains app].
  - rewrite orb_false_r. intros H. destruct sub; [|discriminate].
    destruct post; reflexivity.
  - intros H. apply orb_true_iff in H. apply orb_true_iff.
    destruct H as [H|H].
    + left. exact (startswith_app _ (c :: s) post H).
    + right. apply IH. exact H.
Qed.

Lemma contains_app_l (sub pre s : str) :
  contains sub s = true -> contains sub (pre ++ s) = true.
Proof.
  intros H. induction pre as [|c pre IH]; [exact H|].
  cbn [app contains]. rewrite IH. apply orb_true_r.
Qed.

(** The first line of a text is where the text begins. *)
Lemma first_line_prefix (s l : str) (ls : list str) :
  split_nl s = l :: ls -> exists post, s = l ++ post.
Proof.
  revert l ls. induction s as [|c t IH]; intros l ls; cbn [split_nl].
  - intros H. injection H as <- _. exists []. reflexivity.
  - destruct (N.eqb_spec c NL) as [E|NE].
    + intros H. injection H as <- _. exists (c :: t). reflexivity.
    + destruct (split_nl t) as [|l0 ls0] eqn:Et.
      * intros H. contradiction (split_nl_nonempty t).
      * intros H. injection H as <- _.
        destruct (IH l0 ls0 eq_refl) as [post E].
        exists post. cbn. rewrite <- E. reflexivity.
Qed.

(** A line of a text is a part of it. *)
Lemma line_occurs (s l : str) : In l (split_nl s) -> occurs_in l s.
Proof.
  revert l. induction s as [|c t IH]; intros l; cbn [split_nl].
  - intros [<-|[]]. exists [], []. reflexivity.
  - destruct (N.eqb_spec c NL) as [E|NE].
    + intros [<-|H].
      * exists [], (c :: t). reflexivity.
      * destruct (IH l H) as (pre & post & ->).
        exists (c :: pre), post. reflexivity.
    + destruct (split_nl t) as [|l0 ls] eqn:Et;
        [contradiction (split_nl_nonempty t)|].
      intros [<-|H].
      * destruct (first_line_prefix t Et) as [post E].
        exists [], post. cbn. rewrite <- E. reflexivity.
      * destruct (IH l (or_intror H)) as (pre & post & ->).
        exists (c :: pre), post. reflexivity.
Qed.

Lemma contains_occurs (sub l s : str) :
  occurs_in l s -> contains sub l = true -> contains sub s = true.
Proof.
  intros (pre & post & ->) H.
  apply contains_app_l, contains_app_r. exact H.
Qed.

Lemma filter_all {A} (f : A -> bool) (l : list A) :
  Forall (fun a => f a = true) l -> filter f l = l.
Proof.
  induction 1 as [|a l Ha Hl IH]; [reflexivity|].
  cbn. rewrite Ha, IH. reflexivity.
Qed.

(** X8: a text in which the marker does not occur is returned as it is. *)
Theorem clean_hallucinations_no_marker (text : str) :
  contains MARKER text = false -> _clean_hallucinations text = text.
Proof.
  intros H. unfold _clean_hallucinations.
  rewrite filter_all; [apply join_split_nl|].
  apply Forall_forall. intros l Hl.
  assert (Hc : contains MARKER l = false).
  { destruct (contains MARKER l) eqn:E; [|reflexivity].
    rewrite (contains_occurs MARKER (line_occurs _ _ Hl) E) in H.
    discriminate H. }
  unfold keeps. rewrite Hc, andb_false_r.
  rewrite (contains_count l MARKER_nonempty) in Hc.
  apply Nat.leb_gt in Hc.
  destruct (Nat.ltb_spec 3 (count MARKER l)); [lia | reflexivity].
Qed.

Lemma clean_hallucinations_no_marker_witness :
  _clean_hallucinations (lit "# Title" ++ [NL] ++ lit "\begin{matrix}")
  = lit "# Title" ++ [NL] ++ lit "\begin{matrix}".
Proof.
  apply clean_hallucinations_no_marker. reflexivity.
Defined.

Lemma keeps_plausible (l : str) : keeps l = true -> plausible l.
Proof.
  unfold keeps, plausible.
  destruct (Nat.ltb_spec 3 (count MARKER l)); [discriminate|].
  destruct (Nat.ltb_spec 500 (length l)); cbn [andb].
  - destruct (contains MARKER l); [discriminate|].
    intros _. split; [lia | discriminate].
  - intros _. split; lia.
Qed.

Lemma filter_holds {A} (f : A -> bool) (l : list A) :
  Forall (fun a => f a = true) (filter f l).
Proof.
  apply Forall_forall. intros a H. apply filter_In in H. apply H.
Qed.

(** X9: every line of the filter's output holds the marker at most three
    times, and is at most 500 characters long if it holds it at all. *)
Theorem clean_hallucinations_lines_plausible (text : str) :
  Forall plausible (split_nl (_clean_hallucinations text)).
Proof.
  unfold _clean_hallucinations.
  destruct (filter keeps (split_nl text)) as [|l ls] eqn:E.
  - constructor; [|constructor]. split; [cbn; lia | discriminate].
  - rewrite split_nl_join.
    + rewrite <- E.
      eapply Forall_impl; [|apply filter_holds].
      intros a. apply keeps_plausible.
    + rewrite <- E. apply filter_Forall, split_nl_lines.
Qed.

End FilterFacts.

(** ** More on formula extraction *)

Module ExtractFacts.

Import OCRProcessor OCR Spec Vocabulary.

Lemma match_lazy (dotall : bool) (p' : Re.pattern) prev s :
  Re.match_here dotall (Re.LazyAnyGroup :: p') prev s
  = lazy_loop dotall p' [] prev s.
Proof. reflexivity. Qed.

(** What the lazy star has taken when it succeeds: the shortest text after
    which the rest of the pattern matches. *)
Lemma lazy_loop_spec (dotall : bool) (p' : Re.pattern) :
  forall s acc prev g r,
    lazy_loop dotall p' acc prev s = Some (g, r) ->
    exists mid s' g0,
      s = mid ++ s' /\ g = rev acc ++ mid /\
      Forall (fun x => Re.dot dotall x = true) mid /\
      Re.match_here dotall p' (char_before prev mid) s' = Some (g0, r) /\
      (forall a b, mid = a ++ b -> b <> [] ->
         Re.match_here dotall p' (char_before prev a) (b ++ s') = None).
Proof.
  induction s as [|x t IH]; intros acc prev g r H; cbn [lazy_loop] in H.
  - destruct (Re.match_here dotall p' prev []) as [[g0 r0]|] eqn:E;
      [|discriminate].
    injection H as <- <-. exists [], [], g0.
    split; [reflexivity|]. split; [symmetry; apply app_nil_r|].
    split; [constructor|]. split; [exact E|].
    intros a b Hab Hb. destruct a, b; try discriminate. contradiction.
  - destruct (Re.match_here dotall p' prev (x :: t)) as [[g0 r0]|] eqn:E.
    + injection H as <- <-. exists [], (x :: t), g0.
      split; [reflexivity|]. split; [symmetry; apply app_nil_r|].
      split; [constructor|]. split; [exact E|].
      intros a b Hab Hb. destruct a, b; try discriminate. contradiction.
    + destruct (Re.dot dotall x) eqn:Ex; [|discriminate].
      destruct (IH _ _ _ _ H) as (mid & s' & g0 & -> & -> & Hd & Hm & Hmin).
      exists (x :: mid), s', g0.
      split; [reflexivity|]. split; [|split; [|split]].
      * cbn [rev]. rewrite <- app_assoc. reflexivity.
      * constructor; assumption.
      * exact Hm.
      * intros a b Hab Hb. destruct a as [|y a].
        -- cbn in Hab. subst b. exact E.
        -- cbn in Hab. injection Hab as <- ->.
           cbn [char_before]. apply Hmin; [reflexivity | exact Hb].
Qed.

(** Every group [findall] returns is the group of a match at some position
    of the text. *)
Lemma findall_from_sound (dotall : bool) (p : Re.pattern) :
  forall s skip prev g,
    In g (Re.findall_from dotall p skip prev s) ->
    exists pre s' prev' r,
      s = pre ++ s' /\ Re.match_here dotall p prev' s' = Some (g, r).
Proof.
  induction s as [|x t IH]; intros skip prev g H.
  - destruct skip; cbn in H; [|contradiction].
    destruct (Re.match_here dotall p prev []) as [[g0 r0]|] eqn:E;
      [|contradiction].
    destruct H as [<-|[]]. exists [], [], prev, r0. split; [reflexivity | exact E].
  - destruct skip as [|k]; cbn [Re.findall_from] in H.
    + destruct (Re.match_here dotall p prev (x :: t)) as [[g0 r0]|] eqn:E.
      * destruct H as [<-|H].
        -- exists [], (x :: t), prev, r0. split; [reflexivity | exact E].
        -- destruct (IH _ _ _ H) as (pre & s' & prev' & r & -> & Hm).
           exists (x :: pre), s', prev', r. split; [reflexivity | exact Hm].
      * destruct (IH _ _ _ H) as (pre & s' & prev' & r & -> & Hm).
        exists (x :: pre), s', prev', r. split; [reflexivity | exact Hm].
    + destruct (IH _ _ _ H) as (pre & s' & prev' & r & -> & Hm).
      exists (x :: pre), s', prev', r. split; [reflexivity | exact Hm].
Qed.

Lemma match_lit dotall c p' prev s g r :
  Re.match_here dotall (Re.Lit c :: p') prev s = Some (g, r) ->
  exists t, s = c :: t /\ Re.match_here dotall p' (Some c) t = Some (g, r).
Proof.
  cbn [Re.match_here]. destruct s as [|x t]; [discriminate|].
  destruct (N.eqb_spec x c) as [->|]; [|discriminate].
  intros H. exists t. split; [reflexivity | exact H].
Qed.

Lemma match_not_behind dotall c p' prev s g r :
  Re.match_here dotall (Re.NotBehind c :: p') prev s = Some (g, r) ->
  prev <> Some c /\ Re.match_here dotall p' prev s = Some (g, r).
Proof.
  cbn [Re.match_here]. destruct prev as [x|].
  - destruct (N.eqb_spec x c) as [->|NE]; [discriminate|].
    intros H. split; [congruence | exact H].
  - intros H. split; [discriminate | exact H].
Qed.

Lemma match_not_ahead dotall c p' prev s g r :
  Re.match_here dotall (Re.NotAhead c :: p') prev s = Some (g, r) ->
  (forall t, s <> c :: t) /\ Re.match_here dotall p' prev s = Some (g, r).
Proof.
  cbn [Re.match_here]. destruct s as [|x t].
  - intros H. split; [discriminate | exact H].
  - destruct (N.eqb_spec x c) as [->|NE]; [discriminate|].
    intros H. split; [congruence | exact H].
Qed.

Lemma char_before_last prev t c : char_before prev (t ++ [c]) = Some c.
Proof.
  revert prev. induction t as [|x t IH]; intros prev; [reflexivity|].
  cbn. apply IH.
Qed.

Lemma contains_split (sub s : str) :
  contains sub s = true ->
  exists a b, s = a ++ b /\ startswith sub b = true.
Proof.
  induction s as [|c s IH]; cbn [contains].
  - rewrite orb_false_r. intros H. exists [], []. split; [reflexivity | exact H].
  - intros H. apply orb_true_iff in H. destruct H as [H|H].
    + exists [], (c :: s). split; [reflexivity | exact H].
    + destruct (IH H) as (a & b & -> & Hb).
      exists (c :: a), b. split; [reflexivity | exact Hb].
Qed.

Lemma startswith_two (x y : char) (b : str) :
  startswith [x; y] b = true -> exists b', b = x :: y :: b'.
Proof.
  destruct b as [|u [|v b']]; cbn; try discriminate.
  - rewrite andb_false_r. discriminate.
  - destruct (N.eqb_spec x u) as [->|]; [|discriminate].
    destruct (N.eqb_spec y v) as [->|]; [|discriminate].
    intros _. exists b'. reflexivity.
Qed.

(** A match of the block pattern: two dollar signs, the group, two dollar
    signs; the group is the shortest possible and so holds no pair of
    dollar signs. *)
Lemma block_match prev s g r :
  Re.match_here true block_pattern prev s = Some (g, r) ->
  s = [DOLLAR; DOLLAR] ++ g ++ [DOLLAR; DOLLAR] ++ r /\
  contains [DOLLAR; DOLLAR] g = false.
Proof.
  unfold block_pattern. intros H.
  apply match_lit in H. destruct H as (t1 & -> & H).
  apply match_lit in H. destruct H as (t2 & -> & H).
  rewrite match_lazy in H. apply lazy_loop_spec in H.
  destruct H as (mid & s' & g0 & -> & -> & _ & Hm & Hmin).
  apply match_lit in Hm. destruct Hm as (t3 & -> & Hm).
  apply match_lit in Hm. destruct Hm as (t4 & -> & Hm).
  cbn in Hm. injection Hm as _ <-.
  split; [reflexivity|]. cbn [rev app].
  destruct (contains [DOLLAR; DOLLAR] mid) eqn:E; [|reflexivity].
  apply contains_split in E. destruct E as (a & b & -> & Hb).
  apply startswith_two in Hb. destruct Hb as [b' ->].
  specialize (Hmin a (DOLLAR :: DOLLAR :: b') eq_refl).
  cbn in Hmin. discriminate Hmin. discriminate.
Qed.

(** A match of the inline pattern: a dollar sign, the group, a dollar
    sign; the group is not empty, stays on one line, and neither begins
    nor ends with a dollar sign. *)
Lemma inline_match prev s g r :
  Re.match_here false inline_pattern prev s = Some (g, r) ->
  s = [DOLLAR] ++ g ++ [DOLLAR] ++ r /\
  g <> [] /\ ~ In NL g /\
  (forall c t, g = c :: t -> c <> DOLLAR) /\
  (forall t c, g = t ++ [c] -> c <> DOLLAR).
Proof.
  unfold inline_pattern. intros H.
  apply match_not_behind in H. destruct H as [_ H].
  apply match_lit in H. destruct H as (t1 & -> & H).
  apply match_not_ahead in H. destruct H as [Hah H].
  rewrite match_lazy in H. apply lazy_loop_spec in H.
  destruct H as (mid & s' & g0 & -> & -> & Hd & Hm & _).
  apply match_not_behind in Hm. destruct Hm as [Hbe Hm].
  apply match_lit in Hm. destruct Hm as (t2 & -> & Hm).
  apply match_not_ahead in Hm. destruct Hm as [_ Hm].
  cbn in Hm. injection Hm as _ <-. cbn [rev app].
  split; [reflexivity|]. split; [|split; [|split]].
  - intros ->. apply Hbe. reflexivity.
  - intros Hin. rewrite Forall_forall in Hd. specialize (Hd _ Hin).
    cbn in Hd. discriminate Hd.
  - intros c t -> ->. exact (Hah _ eq_refl).
  - intros t c -> ->. apply Hbe. apply char_before_last.
Qed.

(** X10: every block expression stands in the text between two pairs of
    dollar signs, and holds no pair of dollar signs itself. *)
Theorem block_matches_sound (text g : str) :
  In g (block_matches text) ->
  occurs_in ([DOLLAR; DOLLAR] ++ g ++ [DOLLAR; DOLLAR]) text /\
  contains [DOLLAR; DOLLAR] g = false.
Proof.
  intros H. apply findall_from_sound in H.
  destruct H as (pre & s' & prev' & r & -> & Hm).
  apply block_match in Hm. destruct Hm as [-> Hc].
  split; [|exact Hc].
  exists pre, r. rewrite <- !app_assoc. reflexivity.
Qed.

Lemma block_matches_sound_witness :
  occurs_in ([DOLLAR; DOLLAR] ++ lit " x+y " ++ [DOLLAR; DOLLAR])
    sample_markdown.
Proof.
  apply (@block_matches_sound sample_markdown (lit " x+y ")).
  left. reflexivity.
Defined.

(** X11: every inline expression stands in the text between two dollar
    signs; it is not empty, holds no newline, and neither begins nor ends
    with a dollar sign. *)
Theorem inline_matches_sound (text g : str) :
  In g (inline_matches text) ->
  occurs_in ([DOLLAR] ++ g ++ [DOLLAR]) text /\
  g <> [] /\ ~ In NL g /\
  (forall c t, g = c :: t -> c <> DOLLAR) /\
  (forall t c, g = t ++ [c] -> c <> DOLLAR).
Proof.
  intros H. apply findall_from_sound in H.
  destruct H as (pre & s' & prev' & r & -> & Hm).
  apply inline_match in Hm. destruct Hm as (-> & Hrest).
  split; [|exact Hrest].
  exists pre, r. rewrite <- !app_assoc. reflexivity.
Qed.

Lemma inline_matches_sound_witness :
  occurs_in ([DOLLAR] ++ lit "z" ++ [DOLLAR]) sample_markdown.
Proof.
  apply (@inline_matches_sound sample_markdown (lit "z")).
  left. reflexivity.
Defined.

Lemma no_members {A} (l : list A) : (forall a, ~ In a l) -> l = [].
Proof.
  destruct l as [|a l]; [reflexivity|].
  intros H. contradiction (H a). left. reflexivity.
Qed.

(** X12: a text without a dollar sign has no expressions. *)
Theorem extract_latex_no_dollar (text : str) :
  ~ In DOLLAR text -> _extract_latex text = [].
Proof.
  intros Hno. unfold _extract_latex.
  rewrite (@no_members _ (block_matches text)), (@no_members _ (inline_matches text)).
  - reflexivity.
  - intros g H. apply findall_from_sound in H.
    destruct H as (pre & s' & prev' & r & -> & Hm).
    apply inline_match in Hm. destruct Hm as (-> & _). apply Hno.
    apply in_or_app. right. left. reflexivity.
  - intros g H. apply findall_from_sound in H.
    destruct H as (pre & s' & prev' & r & -> & Hm).
    apply block_match in Hm. destruct Hm as (-> & _). apply Hno.
    apply in_or_app. right. left. reflexivity.
Qed.

Lemma extract_latex_no_dollar_witness :
  _extract_latex (lit "# Title" ++ [NL] ++ lit "plain text") = [].
Proof.
  apply extract_latex_no_dollar. vm_compute. intuition discriminate.
Defined.

End ExtractFacts.

(** ** More on slide processing *)

Module SlidesFacts.

Import OCRProcessor OCR Spec Vocabulary PyStrFacts CleanFacts.

Lemma clean_fixed (s : str) :
  _clean_hallucinations (_clean_hallucinations s) = _clean_hallucinations s.
Proof.
  unfold _clean_hallucinations at 2 3.
  rewrite clean_join by (apply filter_Forall, split_nl_lines).
  rewrite filter_filter. reflexivity.
Qed.

Lemma combine_app_same {A B} (l1 l2 : list A) (l1' l2' : list B) :
  length l1 = length l1' ->
  combine (l1 ++ l2) (l1' ++ l2') = combine l1 l1' ++ combine l2 l2'.
Proof.
  revert l1'. induction l1 as [|a l1 IH]; intros [|b l1'] H;
    try discriminate; [reflexivity|].
  cbn. f_equal. apply IH. injection H as H. exact H.
Qed.

Section Client.

Variable World : Type.
Variable analyze_image : list Byte.byte -> World -> option str * World.

Lemma process_slide_result slide image_bytes w r w' :
  process_slide analyze_image slide image_bytes w = (Some r, w') ->
  ocr_slide_number r = slide_number slide /\ coherent r.
Proof.
  unfold process_slide, bind, ret.
  destruct (analyze_image image_bytes w) as [[response|] w1]; [|discriminate].
  intros H. injection H as <- _. split; [reflexivity|].
  unfold coherent. cbn. repeat split. apply clean_fixed.
Qed.

(** The loop continues a run: the pairs of a list are processed after
    those of the list before it, from the state and with the results that
    run has left, unless it has raised. *)
Lemma process_zipped_app pairs1 pairs2 :
  forall results w,
    process_zipped analyze_image (pairs1 ++ pairs2) results w
    = match process_zipped analyze_image pairs1 results w with
      | (Some results', w') => process_zipped analyze_image pairs2 results' w'
      | (None, w') => (None, w')
      end.
Proof.
  induction pairs1 as [|[slide image_bytes] pairs1 IH]; intros results w.
  - reflexivity.
  - cbn [app process_zipped]. unfold bind.
    destruct (process_slide analyze_image slide image_bytes w) as [[r|] w1].
    + apply IH.
    + reflexivity.
Qed.

(** The results the loop was entered with come first in what it returns. *)
Lemma process_zipped_results pairs :
  forall results w,
    process_zipped analyze_image pairs results w
    = match process_zipped analyze_image pairs [] w with
      | (Some new, w') => (Some (results ++ new), w')
      | (None, w') => (None, w')
      end.
Proof.
  induction pairs as [|[slide image_bytes] pairs IH]; intros results w.
  - cbn. unfold ret. rewrite app_nil_r. reflexivity.
  - cbn [process_zipped]. unfold bind.
    destruct (process_slide analyze_image slide image_bytes w) as [[r|] w1];
      [|reflexivity].
    rewrite (IH (results ++ [r])), (IH ([] ++ [r])).
    destruct (process_zipped analyze_image pairs [] w1) as [[new|] w2];
      [|reflexivity].
    rewrite <- app_assoc. reflexivity.
Qed.

Lemma process_zipped_some pairs :
  forall results w all w',
    process_zipped analyze_image pairs results w = (Some all, w') ->
    exists new,
      all = results ++ new /\
      Forall2 (fun r p => ocr_slide_number r = slide_number (fst p) /\
                          coherent r) new pairs.
Proof.
  induction pairs as [|[slide image_bytes] pairs IH]; intros results w all w' H.
  - cbn in H. injection H as <- _. exists []. rewrite app_nil_r.
    split; [reflexivity | constructor].
  - cbn [process_zipped] in H. unfold bind in H.
    destruct (process_slide analyze_image slide image_bytes w)
      as [[r|] w1] eqn:E; [|discriminate].
    destruct (IH _ _ _ _ H) as (new & -> & HF).
    exists (r :: new). rewrite <- app_assoc. split; [reflexivity|].
    constructor; [|exact HF]. exact (process_slide_result _ _ _ E).
Qed.

End Client.

(** X13: whenever [process_slides] returns, with any client, it returns
    one result for each pair of a slide and an image at the same position;
    each result carries its slide's number, its markdown is the filtered
    raw text, which the filter leaves unchanged, and its expressions are
    those extracted from that markdown. *)
Theorem process_slides_results
    (World : Type)
    (analyze_image : list Byte.byte -> World -> option str * World)
    (slides : list DetectedSlide) (image_bytes_list : list (list Byte.byte))
    (w w' : World) (results : list OCRResult) :
  process_slides analyze_image slides image_bytes_list w = (Some results, w') ->
  length results = min (length slides) (length image_bytes_list) /\
  Forall2 (fun r p => ocr_slide_number r = slide_number (fst p) /\ coherent r)
    results (combine slides image_bytes_list).
Proof.
  unfold process_slides. intros H.
  apply process_zipped_some in H. destruct H as (new & -> & HF).
  cbn [app]. split; [|exact HF].
  rewrite (Forall2_length HF). apply length_combine.
Qed.

Lemma process_slides_results_witness :
  exists results,
    process_slides failing_client
      [Build_DetectedSlide 7; Build_DetectedSlide 8] [[]; []; []] 0
    = (Some results, 2) /\
    length results = 2.
Proof.
  eexists. split; [reflexivity|].
  apply (@process_slides_results nat failing_client
           [Build_DetectedSlide 7; Build_DetectedSlide 8] [[]; []; []] 0 2).
  reflexivity.
Defined.

(** X14: a batch can be cut anywhere: processing the first slides and
    images and then the others, from the state the client is left in,
    gives the results of processing them all at once. *)
Theorem process_slides_app
    (World : Type)
    (analyze_image : list Byte.byte -> World -> option str * World)
    (slides1 slides2 : list DetectedSlide)
    (images1 images2 : list (list Byte.byte))
    (w w1 w2 : World) (results1 results2 : list OCRResult) :
  length slides1 = length images1 ->
  process_slides analyze_image slides1 images1 w = (Some results1, w1) ->
  process_slides analyze_image slides2 images2 w1 = (Some results2, w2) ->
  process_slides analyze_image (slides1 ++ slides2) (images1 ++ images2) w
  = (Some (results1 ++ results2), w2).
Proof.
  unfold process_slides. intros HL H1 H2.
  rewrite (@combine_app_same _ _ _ slides2 _ images2 HL), process_zipped_app, H1.
  rewrite process_zipped_results, H2. reflexivity.
Qed.

Lemma process_slides_app_witness :
  process_slides counting_client
    ([Build_DetectedSlide 1] ++ [Build_DetectedSlide 2]) ([[]] ++ [[]]) 0
  = (Some ([mkOCRResult 1 [] [] []] ++ [mkOCRResult 2 [DOLLAR] [DOLLAR] []]), 2).
Proof.
  apply (@process_slides_app nat counting_client
           [Build_DetectedSlide 1] [Build_DetectedSlide 2] [[]] [[]] 0 1 2);
    reflexivity.
Defined.

(** X15: the first call of the client that raises ends the batch:
    [process_slides] raises, returns none of the results obtained so far,
    and analyses no further image. *)
Theorem process_slides_raises
    (World : Type)
    (analyze_image : list Byte.byte -> World -> option str * World)
    (slides1 slides2 : list DetectedSlide) (slide : DetectedSlide)
    (images1 images2 : list (list Byte.byte)) (image_bytes : list Byte.byte)
    (w w1 w2 : World) (results1 : list OCRResult) :
  length slides1 = length images1 ->
  process_slides analyze_image slides1 images1 w = (Some results1, w1) ->
  analyze_image image_bytes w1 = (None, w2) ->
  process_slides analyze_image (slides1 ++ slide :: slides2)
    (images1 ++ image_bytes :: images2) w
  = (None, w2).
Proof.
  unfold process_slides. intros HL H1 H2.
  rewrite (@combine_app_same _ _ _ (slide :: slides2) _ (image_bytes :: images2) HL),
    process_zipped_app, H1.
  cbn [combine process_zipped]. unfold bind at 1, process_slide, bind.
  rewrite H2. reflexivity.
Qed.

Lemma process_slides_raises_witness :
  process_slides failing_client
    ([Build_DetectedSlide 1; Build_DetectedSlide 2]
       ++ Build_DetectedSlide 3 :: [Build_DetectedSlide 4])
    ([[]; []] ++ [] :: [[]]) 0
  = (None, 3).
Proof.
  apply (@process_slides_raises nat failing_client
           [Build_DetectedSlide 1; Build_DetectedSlide 2] [Build_DetectedSlide 4]
           (Build_DetectedSlide 3) [[]; []] [[]] [] 0 2 3
           [mkOCRResult 1 [] [] []; mkOCRResult 2 [DOLLAR] [DOLLAR] []]);
    reflexivity.
Defined.

End SlidesFacts.

(** ** The URLs of the local storage client *)

Module StorageFacts.

Import Storage.

Lemma rev_repeat {A} (x : A) (n : nat) : rev (repeat x n) = repeat x n.
Proof.
  induction n as [|n IH]; [reflexivity|].
  cbn [repeat rev]. rewrite IH. symmetry. apply repeat_cons.
Qed.


Lemma lstrip_chars_repeat (n : nat) (s : str) :
  lstrip_chars [SLASH] (repeat SLASH n ++ s) = lstrip_chars [SLASH] s.
Proof. induction n as [|n IH]; [reflexivity | exact IH]. Qed.



Lemma rstrip_chars_repeat (b : str) (n : nat) :
  rstrip_chars [SLASH] (b ++ repeat SLASH n) = rstrip_chars [SLASH] b.
Proof.
  unfold rstrip_chars.
  rewrite rev_app_distr, rev_repeat, lstrip_chars_repeat. reflexivity.
Qed.



Lemma replace_char_clean (key : str) :
  ~ In BACKSLASH (replace_char BACKSLASH SLASH key).
Proof.
  unfold replace_char. intros H. apply in_map_iff in H.
  destruct H as (c & E & _).
  destruct (c =? BACKSLASH)%N eqn:Ec; [discriminate E|].
  apply N.eqb_neq in Ec. congruence.
Qed.

Lemma replace_char_id (key : str) :
  ~ In BACKSLASH key -> replace_char BACKSLASH SLASH key = key.
Proof.
  unfold replace_char. induction key as [|c key IH]; intros H; [reflexivity|].
  cbn [map]. destruct (N.eqb_spec c BACKSLASH) as [->|NE].
  - contradiction H. left. reflexivity.
  - f_equal. apply IH. intros Hin. apply H. right. exact Hin.
Qed.

(** X16: base URLs that differ only in slashes at their end give the same
    client, and so the same URLs. *)
Theorem init_trailing_slashes (storage_path base_url : str) (n : nat) :
  init storage_path (base_url ++ repeat SLASH n) = init storage_path base_url.
Proof. unfold init. rewrite rstrip_chars_repeat. reflexivity. Qed.


(** X18: two keys without backslashes that have the same URL are the same
    key; a key and the key with its backslashes turned into slashes always
    have the same URL. *)
Theorem file_url_injective (self : LocalStorageClient) (key1 key2 : str) :
  (~ In BACKSLASH key1 -> ~ In BACKSLASH key2 ->
   _get_file_url self key1 = _get_file_url self key2 -> key1 = key2) /\
  _get_file_url self (replace_char BACKSLASH SLASH key1)
  = _get_file_url self key1.
Proof.
  unfold _get_file_url. split.
  - intros H1 H2 E. apply app_inv_head in E. injection E as E.
    rewrite !replace_char_id in E by assumption. exact E.
  - rewrite (@replace_char_id _ (replace_char_clean key1)). reflexivity.
Qed.

Lemma file_url_injective_witness :
  lit "videos" ++ lit "/a.mp4" = lit "videos/a.mp4".
Proof.
  apply (proj1 (file_url_injective
                  (init (lit "data") (lit "http://localhost:8000/files/"))
                  (lit "videos" ++ lit "/a.mp4") (lit "videos/a.mp4")));
    vm_compute; intuition discriminate.
Defined.

End StorageFacts.

(** ** Segments and the full text *)

Module SegmentTextFacts.

Import STT Spec Vocabulary PyStrFacts STTFacts TrimFacts.

Lemma occurs_nil (s : str) : occurs_in [] s.
Proof. exists [], s. reflexivity. Qed.

Lemma occurs_trans (a b c : str) : occurs_in a b -> occurs_in b c -> occurs_in a c.
Proof.
  intros (p1 & q1 & ->) (p2 & q2 & ->).
  exists (p2 ++ p1), (q1 ++ q2). rewrite <- !app_assoc. reflexivity.
Qed.

Lemma occurs_rev (t s : str) : occurs_in t s -> occurs_in (rev t) (rev s).
Proof.
  intros (pre & post & ->). exists (rev post), (rev pre).
  rewrite !rev_app_distr, <- app_assoc. reflexivity.
Qed.

(** Stripping a text on the left keeps what begins without whitespace. *)
Lemma lstrip_keeps (t s : str) :
  (forall c t', t = c :: t' -> isspace c = false) ->
  occurs_in t s -> occurs_in t (lstrip s).
Proof.
  intros Ht. induction s as [|x s IH]; intros H; [exact H|].
  cbn [lstrip]. destruct (isspace x) eqn:Ex; [|exact H].
  destruct H as (pre & post & E). destruct pre as [|y pre].
  - destruct t as [|c t']; [apply occurs_nil|].
    cbn in E. injection E as -> _.
    rewrite (Ht _ _ eq_refl) in Ex. discriminate Ex.
  - cbn in E. injection E as _ ->. apply IH. exists pre, post. reflexivity.
Qed.

Lemma rstrip_keeps (t s : str) :
  (forall t' c, t = t' ++ [c] -> isspace c = false) ->
  occurs_in t s -> occurs_in t (rstrip s).
Proof.
  intros Ht H. unfold rstrip.
  rewrite <- (rev_involutive t). apply occurs_rev, lstrip_keeps.
  - intros c t' E. apply (Ht (rev t')).
    rewrite <- (rev_involutive t), E. reflexivity.
  - apply occurs_rev. exact H.
Qed.

Lemma strip_keeps (t s : str) :
  trimmed t -> occurs_in t s -> occurs_in t (strip s).
Proof.
  intros [Hh Hl] H. unfold strip.
  apply rstrip_keeps; [exact Hl|]. apply lstrip_keeps; [exact Hh | exact H].
Qed.

Lemma strip_occurs (s : str) : occurs_in (strip s) s.
Proof.
  unfold strip.
  destruct (lstrip_suffix s) as [sp E].
  destruct (rstrip_prefix (lstrip s)) as [sp' E'].
  exists sp, sp'. rewrite <- E', <- E. reflexivity.
Qed.

Lemma chunk_occurs (alt : Alternative) (alts : list Alternative) :
  In alt alts ->
  occurs_in (transcript alt)
    (concat (map (fun a => transcript a ++ [SP]) alts)).
Proof.
  induction alts as [|a alts IH]; [intros []|].
  intros [<-|H]; cbn [map concat].
  - exists [], ([SP] ++ concat (map (fun a0 => transcript a0 ++ [SP]) alts)).
    cbn [app]. rewrite <- app_assoc. reflexivity.
  - destruct (IH H) as (pre & post & E).
    exists ((transcript a ++ [SP]) ++ pre), post.
    rewrite E, <- !app_assoc. reflexivity.
Qed.

(** X19: the text of every segment occurs in the full text. *)
Theorem transcribe_segment_text_in_full_text audio
    (offline_recognize : list Byte.byte -> option (list Result)) results :
  offline_recognize audio = Some results ->
  exists tr,
    transcribe true (Some audio) offline_recognize = Returned tr /\
    Forall (fun seg => occurs_in (text seg) (full_text tr)) (segments tr).
Proof.
  intros E. exists (parse results).
  split; [apply transcribe_parse; exact E|].
  rewrite parse_full_text, parse_segments.
  apply Forall_map, Forall_forall. intros alt Hin.
  assert (Ht : text (segment_of alt) = strip (transcript alt)).
  { unfold segment_of. destruct (words alt); reflexivity. }
  rewrite Ht. apply strip_keeps; [apply strip_trimmed|].
  apply (occurs_trans (strip_occurs (transcript alt))).
  apply chunk_occurs. exact Hin.
Qed.

Lemma transcribe_segment_text_in_full_text_witness :
  exists tr,
    answered [result1 " a " []; result1 "b c" [mkWord 0 10]] = Returned tr /\
    Forall (fun seg => occurs_in (text seg) (full_text tr)) (segments tr).
Proof.
  apply (@transcribe_segment_text_in_full_text [] (fun _ => Some
           [result1 " a " []; result1 "b c" [mkWord 0 10]])
           [result1 " a " []; result1 "b c" [mkWord 0 10]]).
  reflexivity.
Defined.

End SegmentTextFacts.
